(** * Uploader connections of FilePizza

    A shallow embedding of [useUploaderConnections] and
    [getOrCreateGlobalPeer] (src/components/WebRTCProvider.tsx), of the
    URL, renewal and unload parts of [useUploaderChannel]
    (src/hooks/useUploaderChannel.ts) and of the [POST /api/destroy]
    route handler.

    The hook keeps, per downloader connection, a React state record
    ([UploaderConnection]) updated through [updateConnection] and a
    closure variable [sendChunkTimeout] holding the pending chunk step.
    We model one connection as the pair of these, and every callback
    ([onData], the timeout callback, [onClose]) as a function from that
    pair to the new pair and the list of effects on the data connection
    ([conn.send] and [conn.close]) in the order the code performs them.
    State updaters are applied when [updateConnection] is called, one
    event at a time, as the single-threaded event loop runs them. *)

From Stdlib Require Import ZArith Lia.
From stdpp Require Import base list gmap strings.

Local Open Scope Z_scope.

(** ** Files *)

(** An [UploadedFile] is a browser [File]: a name, a MIME type and its
    bytes; [size] is the number of bytes. *)
Record UploadedFile := mkFile {
  file_name : string;
  file_type : string;
  file_data : list Byte.byte
}.

Definition size (f : UploadedFile) : Z := Z.of_nat (length (file_data f)).

(** Modelled from the spec: [getFileName] (src/fs.ts, not in the
    sources) returns the file name that the catalog advertises and that
    [Start{fileName}] refers to. *)
Definition getFileName (f : UploadedFile) : string := file_name f.

(** [Blob.prototype.slice(start, end)]: negative positions count from the
    end, positions are clamped to [0, size], an inverted range is empty. *)
Definition rel_pos (sz p : Z) : Z :=
  if p <? 0 then Z.max (sz + p) 0 else Z.min p sz.

Definition blob_slice (f : UploadedFile) (s e : Z) : list Byte.byte :=
  let rs := rel_pos (size f) s in
  let re := rel_pos (size f) e in
  take (Z.to_nat (Z.max (re - rs) 0)) (drop (Z.to_nat rs) (file_data f)).

(** ** Messages (src/messages.ts), after [decodeMessage] *)

Record ClientInfo := mkClientInfo {
  browserName : string;
  browserVersion : string;
  osName : string;
  osVersion : string;
  mobileVendor : option string;
  mobileModel : option string
}.

Record FileInfo := mkFileInfo {
  info_fileName : string;
  info_size : Z;
  info_type : string
}.

Inductive Message :=
  | RequestInfo (ci : ClientInfo)
  | PasswordRequired (errorMessage : option string)
  | UsePassword (password : string)
  | Info (files : list FileInfo)
  | Start (fileName : string) (offset : Z)
  | Pause
  | Chunk (fileName : string) (offset : Z) (bytes : list Byte.byte) (final : bool)
  | Done
  | Report.

(** Effects on the [DataConnection]. *)
Inductive Action :=
  | Send (m : Message)
  | CloseConn.

(** ** Connection records (src/types.ts) *)

Module UploaderConnectionStatus.
Inductive t :=
  | Pending | Ready | Paused | Uploading | Done | Authenticating
  | InvalidPassword | Closed.

Definition eqb (a b : t) : bool :=
  match a, b with
  | Pending, Pending | Ready, Ready | Paused, Paused
  | Uploading, Uploading | Done, Done | Authenticating, Authenticating
  | InvalidPassword, InvalidPassword | Closed, Closed => true
  | _, _ => false
  end.

Lemma eqb_eq a b : eqb a b = true <-> a = b.
Proof. destruct a, b; simpl; split; congruence. Qed.
End UploaderConnectionStatus.

Module UCS := UploaderConnectionStatus.

(** [currentFileProgress] is the JS quotient [num / den]; we keep the
    two operands. *)
Record UploaderConnection := mkConn {
  status : UCS.t;
  completedFiles : Z;
  totalFiles : Z;
  currentFileProgress : Z * Z;
  client : option ClientInfo;
  uploadingFileName : option string;
  uploadingOffset : option Z
}.

Definition set_status (c : UploaderConnection) s : UploaderConnection :=
  mkConn s (completedFiles c) (totalFiles c) (currentFileProgress c)
    (client c) (uploadingFileName c) (uploadingOffset c).

(** The pending [setTimeout] callback of [sendNextChunkAsync]: it closes
    over [fileName], [file] and the mutable [offset] of its [Start]. *)
Record ChunkStep := mkStep {
  step_fileName : string;
  step_file : UploadedFile;
  step_offset : Z
}.

(** One connection: its React record and its [sendChunkTimeout]. *)
Record ConnState := mkState {
  conn : UploaderConnection;
  sendChunkTimeout : option ChunkStep
}.

Definition MAX_CHUNK_SIZE : Z := 128 * 1024.

(** [newConn] *)
Definition initConn (files : list UploadedFile) : ConnState :=
  mkState (mkConn UCS.Pending 0 (Z.of_nat (length files)) (0, 1) None None None)
    None.

(** ** [validateOffset] *)

(** [files.find(...)]; [None] is the thrown ['invalid file offset']. *)
Definition validateOffset (files : list UploadedFile) (fileName : string)
    (offset : Z) : option UploadedFile :=
  List.find (fun file => String.eqb (getFileName file) fileName
                         && (offset <=? size file)) files.

(** ** [onData] *)

(** The [fileInfo] array sent in [Info]. *)
Definition catalog (files : list UploadedFile) : list FileInfo :=
  map (fun f => mkFileInfo (getFileName f) (size f) (file_type f)) files.

(** [{...draft, ...newConnectionState, status}] *)
Definition with_client (c : UploaderConnection) (ci : ClientInfo) s
    : UploaderConnection :=
  mkConn s (completedFiles c) (totalFiles c) (currentFileProgress c)
    (Some ci) (uploadingFileName c) (uploadingOffset c).

(** JavaScript truthiness of a string: [if (password)]. *)
Definition truthy (str : string) : bool := negb (String.eqb str "").

Definition is_status (c : UploaderConnection) (s : UCS.t) : bool :=
  UCS.eqb (status c) s.

(** The [catch] block: [status: Closed] and [conn.close()]. The block
    itself leaves the pending chunk step as it is; on an open connection
    PeerJS answers [conn.close()] by emitting ['close'], which is the
    [EvClose] event handled by [onClose]. *)
Definition onError (s : ConnState) : ConnState * list Action :=
  (mkState (set_status (conn s) UCS.Closed) (sendChunkTimeout s), [CloseConn]).

(** [data] is [None] when [decodeMessage] throws. *)
Definition onData (password : string) (files : list UploadedFile)
    (data : option Message) (s : ConnState) : ConnState * list Action :=
  let c := conn s in
  let timer := sendChunkTimeout s in
  match data with
  | None => onError s
  | Some (RequestInfo ci) =>
      if truthy password then
        (mkState (if negb (is_status c UCS.Pending) then c
                  else with_client c ci UCS.Authenticating) timer,
         [Send (PasswordRequired None)])
      else
        (mkState (if negb (is_status c UCS.Pending) then c
                  else with_client c ci UCS.Ready) timer,
         [Send (Info (catalog files))])
  | Some (UsePassword submittedPassword) =>
      if String.eqb submittedPassword password then
        (mkState (if negb (is_status c UCS.Authenticating)
                     && negb (is_status c UCS.InvalidPassword) then c
                  else set_status c UCS.Ready) timer,
         [Send (Info (catalog files))])
      else
        (mkState (if negb (is_status c UCS.Authenticating) then c
                  else set_status c UCS.InvalidPassword) timer,
         [Send (PasswordRequired (Some "Invalid password"))])
  | Some (Start fileName offset) =>
      match validateOffset files fileName offset with
      | None => onError s
      | Some file =>
          if negb (is_status c UCS.Ready) && negb (is_status c UCS.Paused)
          then (s, [])
          else
            (mkState (mkConn UCS.Uploading (completedFiles c) (totalFiles c)
                        (offset, size file) (client c) (Some fileName)
                        (Some offset))
                     (Some (mkStep fileName file offset)), [])
      end
  | Some Pause =>
      if negb (is_status c UCS.Uploading) then (s, [])
      else (mkState (set_status c UCS.Paused) None, [])
  | Some Done =>
      if negb (is_status c UCS.Ready) then (s, [])
      else (mkState (set_status c UCS.Done) timer, [CloseConn])
  | Some _ => (s, [])
  end.

(** ** The [setTimeout] callback of [sendNextChunkAsync] *)
Definition onChunkTimeout (s : ConnState) : ConnState * list Action :=
  match sendChunkTimeout s with
  | None => (s, [])
  | Some (mkStep fileName file offset) =>
      let end_ := Z.min (size file) (offset + MAX_CHUNK_SIZE) in
      let chunkSize := end_ - offset in
      let final := chunkSize <? MAX_CHUNK_SIZE in
      let out := [Send (Chunk fileName offset (blob_slice file offset end_) final)] in
      let c := conn s in
      if final then
        (mkState (mkConn UCS.Ready (completedFiles c + 1) (totalFiles c) (0, 1)
                   (client c) (uploadingFileName c) (uploadingOffset c)) None,
         out)
      else
        (mkState (mkConn (status c) (completedFiles c) (totalFiles c)
                   (end_, size file) (client c) (uploadingFileName c)
                   (Some end_))
                 (Some (mkStep fileName file end_)), out)
  end.

(** ** [onClose] *)
Definition onClose (s : ConnState) : ConnState * list Action :=
  let c := conn s in
  (mkState (if is_status c UCS.InvalidPassword || is_status c UCS.Done then c
            else set_status c UCS.Closed) None, []).

(** ** Events of one connection *)
Inductive Event :=
  | EvData (data : option Message)
  | EvTimeout
  | EvClose.

Definition step (password : string) (files : list UploadedFile) (e : Event)
    (s : ConnState) : ConnState * list Action :=
  match e with
  | EvData d => onData password files d s
  | EvTimeout => onChunkTimeout s
  | EvClose => onClose s
  end.

Fixpoint run (password : string) (files : list UploadedFile) (es : list Event)
    (s : ConnState) : ConnState * list Action :=
  match es with
  | [] => (s, [])
  | e :: es' =>
      let '(s1, a1) := step password files e s in
      let '(s2, a2) := run password files es' s1 in
      (s2, a1 ++ a2)
  end.

(** [n] chunk timeouts in a row. *)
Definition timeouts (n : nat) (s : ConnState) : ConnState * list Action :=
  run "" [] (repeat EvTimeout n) s.

(** Observations on the effects. *)
Definition chunk_payloads (acts : list Action) : list Byte.byte :=
  flat_map (fun a => match a with Send (Chunk _ _ b _) => b | _ => [] end) acts.

Definition chunk_sizes (acts : list Action) : list Z :=
  flat_map (fun a => match a with
                     | Send (Chunk _ _ b _) => [Z.of_nat (length b)]
                     | _ => [] end) acts.

Definition chunk_finals (acts : list Action) : list bool :=
  flat_map (fun a => match a with Send (Chunk _ _ _ fl) => [fl] | _ => [] end) acts.

(** Every chunk starts where the previous one ended, from [o]; returns the
    offset after the last chunk. *)
Fixpoint contiguous_from (o : Z) (acts : list Action) : option Z :=
  match acts with
  | [] => Some o
  | Send (Chunk _ off b _) :: rest =>
      if off =? o then contiguous_from (o + Z.of_nat (length b)) rest else None
  | _ :: rest => contiguous_from o rest
  end.

(** Number of final chunks among the effects. *)
Definition final_chunks (acts : list Action) : Z :=
  Z.of_nat (length (filter (fun b : bool => b) (chunk_finals acts))).

(** What the record says about the upload in progress agrees with the
    pending chunk step: its file name, its offset, the progress pair and
    an offset within the file. *)
Definition tracks_step (s : ConnState) : Prop :=
  match sendChunkTimeout s with
  | Some (mkStep fileName file o) =>
      uploadingFileName (conn s) = Some fileName /\
      uploadingOffset (conn s) = Some o /\
      currentFileProgress (conn s) = (o, size file) /\
      o <= size file
  | None => True
  end.

(** ** The report branch of [listener] *)

(** An entry of the hook's [connections] state: the [DataConnection]
    (by identity) and its record. *)
Record ConnEntry := mkEntry {
  dataConnection : nat;
  entry : ConnState
}.

(** Effects of the listener: on a data connection, or the hard
    navigation [window.location.href = url]. *)
Inductive SessionAction :=
  | OnConn (id : nat) (a : Action)
  | Navigate (url : string).

(** [connections] is the array the listener closes over. For a report
    connection [reportConn] the listener sends [Report] to and closes each
    entry of it, navigates to ['/reported'] and returns: the report
    connection is neither added to the state nor given handlers. *)
Definition onReportConnection (connections : list ConnEntry) (reportConn : nat)
    : list SessionAction :=
  flat_map (fun c => [OnConn (dataConnection c) (Send Report);
                      OnConn (dataConnection c) CloseConn]) connections
  ++ [Navigate "/reported"].

(** The hook's session. [connections] is the React state; the current
    [listener] is the closure built by the last run of the effect, and it
    reads [listenerConnections], the [connections] of the render in which
    that run happened. The effect depends on [peer], [files] and
    [password] only: a new data connection updates the state
    ([setConnections], prepending its record) but does not re-run the
    effect. [registered] lists, latest first, the connections whose
    cleanup handlers the current run has pushed. *)
Record Session := mkSession {
  connections : list ConnEntry;
  listenerConnections : list ConnEntry;
  registered : list nat
}.

Inductive SessionEvent :=
  | SConnect (id : nat)   (* a downloader's data connection arrives *)
  | SReport (id : nat)    (* a report-flagged connection arrives *)
  | SEffect.              (* [peer], [files] or [password] changed *)

(** The first render has [connections = []], and the effect's first run
    captures it. *)
Definition sessionMount : Session := mkSession [] [] [].

(** A re-run of the effect first runs the old cleanup, whose handlers
    close the connections it registered, in registration order. *)
Definition sessStep (files : list UploadedFile) (s : Session) (ev : SessionEvent)
    : Session * list SessionAction :=
  match ev with
  | SConnect id =>
      (mkSession (mkEntry id (initConn files) :: connections s)
         (listenerConnections s) (id :: registered s), [])
  | SReport id => (s, onReportConnection (listenerConnections s) id)
  | SEffect =>
      (mkSession (connections s) (connections s) [],
       map (fun id => OnConn id CloseConn) (rev (registered s)))
  end.

Fixpoint sessRun (files : list UploadedFile) (s : Session) (evs : list SessionEvent)
    : Session * list SessionAction :=
  match evs with
  | [] => (s, [])
  | ev :: evs' =>
      let '(s1, a1) := sessStep files s ev in
      let '(s2, a2) := sessRun files s1 evs' in
      (s2, a1 ++ a2)
  end.

(** ** [POST /api/destroy] (src/unnamed/part_001) *)

(** JSON values as [request.json()] returns them. *)
Inductive JSValue :=
  | JUndefined | JNull | JBool (b : bool) | JNumber (n : Z) | JString (str : string)
  | JObject | JArray.

(** [!v] *)
Definition falsy (v : JSValue) : bool :=
  match v with
  | JUndefined | JNull => true
  | JBool b => negb b
  | JNumber n => n =? 0
  | JString str => String.eqb str ""
  | JObject | JArray => false
  end.

(** [const { slug } = body] *)
Definition body_slug (body : gmap string JSValue) : JSValue :=
  match body !! "slug" with Some v => v | None => JUndefined end.

Record ChannelRecord := mkChannel {
  longSlug : string;
  shortSlug : string;
  uploaderPeerID : string;
  secret : string
}.

(** Modelled from the spec: [ChannelRepo.destroyChannel] (src/channel.ts,
    not in the sources). [destroy(slug)] needs no secret, removes the
    record the slug names under both of its slugs, and always succeeds,
    also when the slug is absent. The directory maps each slug, short or
    long, to its record. *)
Definition destroyChannel (slug : JSValue) (dir : gmap string ChannelRecord)
    : option (gmap string ChannelRecord) :=
  match slug with
  | JString s =>
      match dir !! s with
      | Some r => Some (delete (shortSlug r) (delete (longSlug r) (delete s dir)))
      | None => Some dir
      end
  | _ => Some dir
  end.

Inductive ResponseBody :=
  | ErrorBody (error : string)
  | SuccessBody (success : bool).

Record Response := mkResponse {
  resp_body : ResponseBody;
  resp_status : Z
}.

(** The handler; [None] from [destroyChannel] is a thrown error. *)
Definition POST (body : gmap string JSValue) (dir : gmap string ChannelRecord)
    : Response * gmap string ChannelRecord :=
  let slug := body_slug body in
  if falsy slug then (mkResponse (ErrorBody "Slug is required") 400, dir)
  else
    match destroyChannel slug dir with
    | Some dir' => (mkResponse (SuccessBody true) 200, dir')
    | None => (mkResponse (ErrorBody "Failed to destroy channel") 500, dir)
    end.

(** ** [getOrCreateGlobalPeer] (src/components/WebRTCProvider.tsx, first half) *)

(** Concurrent calls of [getOrCreateGlobalPeer], interleaved at their
    [await]s. Peers are numbered in construction order; a peer has an
    [id] once it has opened. A call is idle, awaiting the [/api/ice]
    fetch, awaiting the [open] event of a peer (the listener is
    registered on the peer [globalPeer] names at that moment), or has
    returned [globalPeer]. The continuation after an [await] runs as one
    step. A peer counts here as having an [id] from its [open] event on;
    PeerJS may set the [id] somewhat earlier (a freshly constructed peer
    has none), which only lets a later call return without waiting. *)
Inductive CallPC :=
  | CIdle
  | CFetching
  | CWaitOpen (p : nat)
  | CReturned (p : option nat).

Record PeerState := mkPeers {
  globalPeer : option nat;
  peersCreated : nat;
  peersOpen : list nat;
  fetchCount : nat;
  calls : list CallPC
}.

Inductive PeerEvent :=
  | PCall (i : nat)        (* call [i] starts *)
  | PFetchDone (i : nat)   (* the fetch of call [i] answers *)
  | POpen (p : nat).       (* peer [p] fires [open] *)

(** [if (globalPeer.id) return globalPeer], else wait for [open]. *)
Definition check_id (g : option nat) (opened : list nat) : CallPC :=
  match g with
  | Some p => if existsb (Nat.eqb p) opened then CReturned (Some p) else CWaitOpen p
  | None => CReturned None
  end.

Definition set_call (st : PeerState) (i : nat) (pc : CallPC) : list CallPC :=
  <[i := pc]> (calls st).

Definition peerStep (st : PeerState) (ev : PeerEvent) : PeerState :=
  match ev with
  | PCall i =>
      match calls st !! i with
      | Some CIdle =>
          match globalPeer st with
          | None => mkPeers None (peersCreated st) (peersOpen st) (S (fetchCount st))
                      (set_call st i CFetching)
          | Some _ => mkPeers (globalPeer st) (peersCreated st) (peersOpen st)
                        (fetchCount st)
                        (set_call st i (check_id (globalPeer st) (peersOpen st)))
          end
      | _ => st
      end
  | PFetchDone i =>
      match calls st !! i with
      | Some CFetching =>
          let p := peersCreated st in
          mkPeers (Some p) (S p) (peersOpen st) (fetchCount st)
            (set_call st i (check_id (Some p) (peersOpen st)))
      | _ => st
      end
  | POpen p =>
      if (p <? peersCreated st)%nat && negb (existsb (Nat.eqb p) (peersOpen st)) then
        mkPeers (globalPeer st) (peersCreated st) (p :: peersOpen st) (fetchCount st)
          (map (fun pc => match pc with
                          | CWaitOpen q => if Nat.eqb q p then CReturned (globalPeer st) else pc
                          | _ => pc
                          end) (calls st))
      else st
  end.

Definition peerRun (st : PeerState) (evs : list PeerEvent) : PeerState :=
  fold_left peerStep evs st.

(** ** [useUploaderChannel] (src/hooks/useUploaderChannel.ts) *)

(** The parts of [window.location] that [generateURL] reads. *)
Record Location := mkLocation {
  protocol : string;
  hostname : string;
  port : string
}.

Definition generateURL (loc : Location) (slug : string) : string :=
  (protocol loc ++ "//" ++ hostname loc
   ++ (if truthy (port loc) then ":" ++ port loc else "")
   ++ "/download/" ++ slug)%string.

(** [longURL] and [shortURL]: [slug ? generateURL(slug) : undefined],
    [None] being [undefined]. *)
Definition slugURL (loc : Location) (slug : option string) : option string :=
  match slug with
  | Some s => if truthy s then Some (generateURL loc s) else None
  | None => None
  end.

(** [!v] on an optional string field of [data]. *)
Definition falsy_opt (v : option string) : bool :=
  match v with Some s => negb (truthy s) | None => true end.

(** The renewal effect: after [run()] a timer is pending; each firing
    calls [renewMutation.mutate({secret})], whose request body is
    [{slug: shortSlug, secret}], and schedules the next timer; the
    cleanup clears the pending timer. *)
Inductive RenewEvent :=
  | RenewFire
  | RenewCleanup.

Record RenewRequest := mkRenew {
  renew_slug : string;
  renew_secret : string
}.

Fixpoint renewLoop (secret shortSlug : string) (pending : bool) (evs : list RenewEvent)
    : list RenewRequest :=
  match evs with
  | [] => []
  | RenewFire :: evs' =>
      if pending then mkRenew shortSlug secret :: renewLoop secret shortSlug true evs'
      else renewLoop secret shortSlug false evs'
  | RenewCleanup :: evs' => renewLoop secret shortSlug false evs'
  end.

(** [if (!secret || !shortSlug) return]; otherwise [run()]. *)
Definition renewEffect (secret shortSlug : option string) (evs : list RenewEvent)
    : list RenewRequest :=
  match secret, shortSlug with
  | Some s, Some sl =>
      if falsy_opt secret || falsy_opt shortSlug then []
      else renewLoop s sl true evs
  | _, _ => []
  end.

(** Timer firings before the first cleanup. *)
Fixpoint fires_before_cleanup (evs : list RenewEvent) : nat :=
  match evs with
  | [] => 0
  | RenewFire :: evs' => S (fires_before_cleanup evs')
  | RenewCleanup :: _ => 0
  end.

(** The [beforeunload] handler, registered only when [shortSlug] and
    [secret] are truthy: the beacon's URL and its body
    [{slug: shortSlug}] as the route handler's [request.json()] reads it. *)
Definition unloadBeacon (shortSlug secret : option string)
    : option (string * gmap string JSValue) :=
  match shortSlug with
  | Some sl =>
      if falsy_opt shortSlug || falsy_opt secret then None
      else Some ("/api/destroy"%string, <["slug" := JString sl]> (∅ : gmap string JSValue))
  | None => None
  end.

(** ** Concrete inputs *)

(** A 300000-byte file and a connection that is [Ready]. *)
Definition movie : UploadedFile :=
  mkFile "movie.bin" "application/octet-stream"
    (repeat Byte.x00 (Z.to_nat 300000)).

(** A desktop browser. *)
Definition firefox : ClientInfo :=
  mkClientInfo "Firefox" "128.0" "Linux" "6.1" None None.

(** The password-protected handshake followed by a [Start]. *)
Definition authedStart : list Event :=
  [EvData (Some (RequestInfo firefox)); EvData (Some (UsePassword "pizza"));
   EvData (Some (Start "empty.txt" 0))].

(** A channel registered under both of its slugs. *)
Definition pizzaChannel : ChannelRecord :=
  mkChannel "cheese/pepperoni/olive" "A1b2C3" "peer-42" "s3cr3t".

Definition pizzaDir : gmap string ChannelRecord :=
  <["A1b2C3" := pizzaChannel]> (<["cheese/pepperoni/olive" := pizzaChannel]> ∅).

(** An empty file. *)
Definition emptyFile : UploadedFile := mkFile "empty.txt" "text/plain" [].

Definition readyConn : UploaderConnection :=
  mkConn UCS.Ready 0 1 (0, 1) None None None.

(** * Properties *)

(** ** Byte ranges *)

Lemma size_movie : size movie = 300000.
Proof. vm_compute. reflexivity. Qed.


Lemma rel_pos_in sz p : 0 <= p <= sz -> rel_pos sz p = p.
Proof. intros H. unfold rel_pos. destruct (Z.ltb_spec p 0); lia. Qed.

Lemma blob_slice_in f s e :
  0 <= s <= e -> e <= size f ->
  blob_slice f s e = take (Z.to_nat (e - s)) (drop (Z.to_nat s) (file_data f)).
Proof.
  intros Hs He. unfold blob_slice.
  rewrite !rel_pos_in by lia. f_equal. f_equal. lia.
Qed.

Lemma blob_slice_app f a b c :
  0 <= a <= b -> b <= c -> c <= size f ->
  blob_slice f a b ++ blob_slice f b c = blob_slice f a c.
Proof.
  intros Hab Hbc Hc.
  rewrite !blob_slice_in by lia.
  replace (Z.to_nat b) with (Z.to_nat a + Z.to_nat (b - a))%nat by lia.
  rewrite <- drop_drop, take_take_drop. f_equal. lia.
Qed.

Lemma length_blob_slice f s e :
  0 <= s <= e -> e <= size f ->
  Z.of_nat (length (blob_slice f s e)) = e - s.
Proof.
  intros Hs He. rewrite blob_slice_in by lia.
  rewrite length_take, length_drop. unfold size in He. lia.
Qed.

Lemma blob_slice_empty f o : blob_slice f o o = [].
Proof. unfold blob_slice. rewrite Z.sub_diag. reflexivity. Qed.

(** ** The chunk loop *)

Lemma timeouts_S n s :
  timeouts (S n) s =
  let '(s1, a1) := onChunkTimeout s in
  let '(s2, a2) := timeouts n s1 in (s2, a1 ++ a2).
Proof. reflexivity. Qed.

Lemma timeouts_idle n s :
  sendChunkTimeout s = None -> timeouts n s = (s, []).
Proof.
  intros H. induction n as [|n IH]; [reflexivity|].
  rewrite timeouts_S. unfold onChunkTimeout. rewrite H, IH. reflexivity.
Qed.

Lemma MAX_CHUNK_SIZE_pos : 0 < MAX_CHUNK_SIZE.
Proof. unfold MAX_CHUNK_SIZE. lia. Qed.

(** One firing of the chunk step, as the code writes it. *)
Lemma onChunkTimeout_fire c fileName file offset :
  let end_ := Z.min (size file) (offset + MAX_CHUNK_SIZE) in
  let final := end_ - offset <? MAX_CHUNK_SIZE in
  onChunkTimeout (mkState c (Some (mkStep fileName file offset))) =
  (if final then
     mkState (mkConn UCS.Ready (completedFiles c + 1) (totalFiles c) (0, 1)
                (client c) (uploadingFileName c) (uploadingOffset c)) None
   else
     mkState (mkConn (status c) (completedFiles c) (totalFiles c)
                (end_, size file) (client c) (uploadingFileName c) (Some end_))
             (Some (mkStep fileName file end_)),
   [Send (Chunk fileName offset (blob_slice file offset end_) final)]).
Proof.
  cbv zeta. unfold onChunkTimeout. cbn [sendChunkTimeout].
  destruct (Z.min (size file) (offset + MAX_CHUNK_SIZE) - offset <? MAX_CHUNK_SIZE);
    reflexivity.
Qed.

(** The same, with the end of the chunk and its [final] flag given. *)
Lemma onChunkTimeout_fire_at c fileName file offset end_ final :
  Z.min (size file) (offset + MAX_CHUNK_SIZE) = end_ ->
  (end_ - offset <? MAX_CHUNK_SIZE) = final ->
  onChunkTimeout (mkState c (Some (mkStep fileName file offset))) =
  (if final then
     mkState (mkConn UCS.Ready (completedFiles c + 1) (totalFiles c) (0, 1)
                (client c) (uploadingFileName c) (uploadingOffset c)) None
   else
     mkState (mkConn (status c) (completedFiles c) (totalFiles c)
                (end_, size file) (client c) (uploadingFileName c) (Some end_))
             (Some (mkStep fileName file end_)),
   [Send (Chunk fileName offset (blob_slice file offset end_) final)]).
Proof. intros <- <-. apply onChunkTimeout_fire. Qed.

(** Any number of firings from a valid offset [o]: the payloads are the
    bytes [o, o'), laid end to end, and the step is either still pending
    at [o'] with the status untouched, or finished with [o' = size]. *)
Lemma timeouts_partial k : forall s fileName file o,
  sendChunkTimeout s = Some (mkStep fileName file o) ->
  0 <= o <= size file ->
  exists o', o <= o' <= size file /\
    chunk_payloads (snd (timeouts k s)) = blob_slice file o o' /\
    contiguous_from o (snd (timeouts k s)) = Some o' /\
    ((sendChunkTimeout (fst (timeouts k s)) = Some (mkStep fileName file o')
      /\ status (conn (fst (timeouts k s))) = status (conn s))
     \/ (sendChunkTimeout (fst (timeouts k s)) = None /\ o' = size file
         /\ status (conn (fst (timeouts k s))) = UCS.Ready)).
Proof.
  induction k as [|k IH]; intros [c t] fileName file o Ht Ho; simpl in Ht; subst t.
  - exists o. rewrite blob_slice_empty. cbn.
    split; [lia|]. split; [reflexivity|]. split; [reflexivity|].
    left; split; reflexivity.
  - pose proof MAX_CHUNK_SIZE_pos.
    rewrite timeouts_S, onChunkTimeout_fire. cbv zeta.
    set (e := Z.min (size file) (o + MAX_CHUNK_SIZE)).
    assert (He : o <= e <= size file) by (unfold e; lia).
    destruct (e - o <? MAX_CHUNK_SIZE) eqn:Hfin.
    + rewrite timeouts_idle by reflexivity. simpl.
      apply Z.ltb_lt in Hfin.
      assert (e = size file) by (unfold e in *; lia).
      exists e. rewrite app_nil_r. repeat split; try lia.
      * rewrite Z.eqb_refl, length_blob_slice by lia.
        replace (o + (e - o)) with e by lia. reflexivity.
      * right. repeat split; auto.
    + apply Z.ltb_ge in Hfin.
      destruct (IH (mkState (mkConn (status c) (completedFiles c) (totalFiles c)
                (e, size file) (client c) (uploadingFileName c) (Some e))
                (Some (mkStep fileName file e))) fileName file e)
        as (o' & Ho' & Hp & Hc & Hst); [reflexivity | lia |].
      destruct (timeouts k _) as [s2 a2] eqn:Hk. simpl in *.
      exists o'. repeat split; try lia.
      * rewrite Hp. apply blob_slice_app; lia.
      * rewrite Z.eqb_refl, length_blob_slice by lia.
        replace (o + (e - o)) with e by lia. exact Hc.
      * destruct Hst as [[H1 H2] | H1]; [left | right]; auto.
Qed.

(** Enough firings run the step to the end of the file: the payloads are
    the bytes [o, size) laid end to end, only the last chunk is final,
    and the connection is back to [Ready] with one more completed file. *)
Lemma timeouts_drain n : forall s fileName file o,
  sendChunkTimeout s = Some (mkStep fileName file o) ->
  0 <= o <= size file ->
  (Z.to_nat ((size file - o) / MAX_CHUNK_SIZE) < n)%nat ->
  chunk_payloads (snd (timeouts n s)) = blob_slice file o (size file) /\
  contiguous_from o (snd (timeouts n s)) = Some (size file) /\
  (exists k, chunk_finals (snd (timeouts n s)) = repeat false k ++ [true]) /\
  sendChunkTimeout (fst (timeouts n s)) = None /\
  status (conn (fst (timeouts n s))) = UCS.Ready /\
  completedFiles (conn (fst (timeouts n s))) = completedFiles (conn s) + 1.
Proof.
  induction n as [|n IH]; intros [c t] fileName file o Ht Ho Hn; [lia|].
  simpl in Ht; subst t. pose proof MAX_CHUNK_SIZE_pos.
  rewrite timeouts_S, onChunkTimeout_fire. cbv zeta.
  set (e := Z.min (size file) (o + MAX_CHUNK_SIZE)).
  assert (He : o <= e <= size file) by (unfold e; lia).
  destruct (e - o <? MAX_CHUNK_SIZE) eqn:Hfin.
  - rewrite timeouts_idle by reflexivity. cbn [fst snd conn status completedFiles sendChunkTimeout].
    apply Z.ltb_lt in Hfin.
    assert (Hend : e = size file) by (unfold e in *; lia).
    rewrite app_nil_r. cbn.
    rewrite Z.eqb_refl, length_blob_slice by lia.
    replace (o + (e - o)) with e by lia. rewrite Hend.
    repeat split; auto.
    + apply app_nil_r.
    + exists 0%nat. reflexivity.
  - apply Z.ltb_ge in Hfin.
    assert (He' : e = o + MAX_CHUNK_SIZE) by (unfold e in *; lia).
    assert (Hdiv : (size file - o) / MAX_CHUNK_SIZE
                   = (size file - e) / MAX_CHUNK_SIZE + 1).
    { replace (size file - o) with ((size file - e) + 1 * MAX_CHUNK_SIZE) by lia.
      apply Z_div_plus_full. lia. }
    assert (0 <= (size file - e) / MAX_CHUNK_SIZE) by (apply Z.div_pos; lia).
    destruct (IH (mkState (mkConn (status c) (completedFiles c) (totalFiles c)
              (e, size file) (client c) (uploadingFileName c) (Some e))
              (Some (mkStep fileName file e))) fileName file e)
      as (Hp & Hc & [k Hk] & Ht & Hs & Hd); [reflexivity | lia | lia |].
    destruct (timeouts n _) as [s2 a2] eqn:Hrun. cbn in *.
    rewrite Z.eqb_refl, length_blob_slice by lia.
    replace (o + (e - o)) with e by lia.
    repeat split; auto.
    + rewrite Hp. apply blob_slice_app; lia.
    + exists (S k). rewrite Hk. reflexivity.
Qed.

(** ** [Start] *)

Lemma onData_start_accepted password files c t fileName offset file :
  validateOffset files fileName offset = Some file ->
  status c = UCS.Ready \/ status c = UCS.Paused ->
  onData password files (Some (Start fileName offset)) (mkState c t) =
  (mkState (mkConn UCS.Uploading (completedFiles c) (totalFiles c)
              (offset, size file) (client c) (Some fileName) (Some offset))
           (Some (mkStep fileName file offset)), []).
Proof.
  intros Hv Hs. unfold onData. cbn [conn sendChunkTimeout]. rewrite Hv.
  unfold is_status. destruct Hs as [-> | ->]; reflexivity.
Qed.

Lemma onData_start_rejected password files s fileName offset :
  validateOffset files fileName offset = None ->
  onData password files (Some (Start fileName offset)) s = onError s.
Proof. intros Hv. unfold onData. rewrite Hv. reflexivity. Qed.

(** C1. Each firing of the chunk step computes
    [end = min(fileSize, offset + CHUNK_SIZE)], sends
    [Chunk{fileName, offset, bytes[offset,end), final = (end - offset < CHUNK_SIZE)}]
    and moves the step to [end] (or ends it on the final chunk), the step
    being scheduled at the [Start] offset; a transfer of a 300000-byte file
    from offset 0 emits exactly three chunks, of sizes 131072, 131072 and
    37856, with final flags false, false, true. *)
Theorem chunk_emission_loop :
  (forall (password : string) (files : list UploadedFile) (c : UploaderConnection)
          (t : option ChunkStep) (fileName : string) (offset : Z) (file : UploadedFile),
     validateOffset files fileName offset = Some file ->
     status c = UCS.Ready \/ status c = UCS.Paused ->
     sendChunkTimeout
       (fst (onData password files (Some (Start fileName offset)) (mkState c t)))
     = Some (mkStep fileName file offset)) /\
  (forall (c : UploaderConnection) (fileName : string) (file : UploadedFile) (offset : Z),
     let end_ := Z.min (size file) (offset + MAX_CHUNK_SIZE) in
     let final := end_ - offset <? MAX_CHUNK_SIZE in
     snd (onChunkTimeout (mkState c (Some (mkStep fileName file offset))))
       = [Send (Chunk fileName offset (blob_slice file offset end_) final)] /\
     sendChunkTimeout (fst (onChunkTimeout (mkState c (Some (mkStep fileName file offset)))))
       = (if final then None else Some (mkStep fileName file end_))) /\
  (forall (password : string) (files : list UploadedFile) (c : UploaderConnection)
          (t : option ChunkStep) (f : UploadedFile) (n : nat),
     validateOffset files (getFileName f) 0 = Some f ->
     size f = 300000 ->
     status c = UCS.Ready \/ status c = UCS.Paused ->
     (3 <= n)%nat ->
     let '(s1, a1) := onData password files (Some (Start (getFileName f) 0)) (mkState c t) in
     chunk_sizes (a1 ++ snd (timeouts n s1)) = [131072; 131072; 37856] /\
     chunk_finals (a1 ++ snd (timeouts n s1)) = [false; false; true]).
Proof.
  split; [|split].
  - intros password files c t fileName offset file Hv Hs.
    rewrite (onData_start_accepted _ _ _ _ _ _ _ Hv Hs). reflexivity.
  - intros c fileName file offset. cbv zeta.
    rewrite onChunkTimeout_fire. cbv zeta.
    destruct (_ <? _); split; reflexivity.
  - intros password files c t f n Hv Hsz Hs Hn.
    rewrite (onData_start_accepted _ _ _ _ _ _ _ Hv Hs). cbn [app].
    destruct n as [|[|[|n]]]; try lia.
    rewrite timeouts_S, (onChunkTimeout_fire_at _ _ _ _ 131072 false)
      by (rewrite ?Hsz; reflexivity).
    cbn -[timeouts blob_slice onChunkTimeout].
    rewrite timeouts_S, (onChunkTimeout_fire_at _ _ _ _ 262144 false)
      by (rewrite ?Hsz; reflexivity).
    cbn -[timeouts blob_slice onChunkTimeout].
    rewrite timeouts_S, (onChunkTimeout_fire_at _ _ _ _ 300000 true)
      by (rewrite ?Hsz; reflexivity).
    cbn -[timeouts blob_slice onChunkTimeout].
    rewrite timeouts_idle by reflexivity. cbn -[blob_slice].
    rewrite !length_blob_slice by lia. split; reflexivity.
Qed.

Lemma chunk_emission_loop_witness :
  validateOffset [movie] (getFileName movie) 0 = Some movie /\
  size movie = 300000 /\
  sendChunkTimeout
    (fst (onData "" [movie] (Some (Start (getFileName movie) 0)) (mkState readyConn None)))
  = Some (mkStep (getFileName movie) movie 0) /\
  (let '(s1, a1) := onData "" [movie] (Some (Start (getFileName movie) 0))
                      (mkState readyConn None) in
   chunk_sizes (a1 ++ snd (timeouts 3 s1)) = [131072; 131072; 37856] /\
   chunk_finals (a1 ++ snd (timeouts 3 s1)) = [false; false; true]).
Proof.
  assert (Hv : validateOffset [movie] (getFileName movie) 0 = Some movie).
  { unfold validateOffset. cbn [List.find]. rewrite size_movie, String.eqb_refl.
    reflexivity. }
  split; [exact Hv|]. split; [exact size_movie|]. split.
  - apply (proj1 chunk_emission_loop); [exact Hv | left; reflexivity].
  - apply (proj2 (proj2 chunk_emission_loop));
      [exact Hv | exact size_movie | left; reflexivity | lia].
Defined.

(** ** Transfers and pause / resume *)

Lemma run_timeouts password files k s :
  run password files (repeat EvTimeout k) s = timeouts k s.
Proof.
  induction k as [|k IH] in s |- *; [reflexivity|].
  unfold timeouts in *. cbn [repeat run step].
  destruct (onChunkTimeout s) as [s1 a1]. rewrite IH. reflexivity.
Qed.

Lemma blob_slice_full f : blob_slice f 0 (size f) = file_data f.
Proof.
  rewrite blob_slice_in by (unfold size; lia).
  rewrite drop_0. apply take_ge. unfold size. lia.
Qed.

Lemma take_blob_slice f s e n :
  0 <= s <= e -> e <= size f -> (n <= Z.to_nat (e - s))%nat ->
  take n (blob_slice f s e) = blob_slice f s (s + Z.of_nat n).
Proof.
  intros Hs He Hn. rewrite !blob_slice_in by lia.
  rewrite take_take. f_equal. lia.
Qed.

(** A file found for a name and an offset is found again for any larger
    offset up to its size: the files before it in the list that have the
    name are smaller than the first offset, hence than the second. *)
Lemma validateOffset_again files fileName o a file :
  validateOffset files fileName o = Some file ->
  o <= a <= size file ->
  validateOffset files fileName a = Some file.
Proof.
  unfold validateOffset. intros Hv Ha.
  induction files as [|g files IH]; cbn [List.find] in *; [discriminate|].
  destruct (String.eqb (getFileName g) fileName) eqn:En; cbn [andb] in *.
  - destruct (o <=? size g) eqn:Eo.
    + injection Hv as <-. replace (a <=? size g) with true
        by (symmetry; apply Z.leb_le; lia). reflexivity.
    + apply Z.leb_gt in Eo. replace (a <=? size g) with false
        by (symmetry; apply Z.leb_gt; lia). apply IH. exact Hv.
  - apply IH. exact Hv.
Qed.

Lemma validateOffset_bound files fileName o file :
  validateOffset files fileName o = Some file -> o <= size file.
Proof.
  unfold validateOffset. intros Hv. apply find_some in Hv as [_ Hp].
  apply andb_true_iff in Hp as [_ Hp]. apply Z.leb_le in Hp. exact Hp.
Qed.

Lemma run_cons password files e es s :
  run password files (e :: es) s =
  (fst (run password files es (fst (step password files e s))),
   snd (step password files e s) ++ snd (run password files es (fst (step password files e s)))).
Proof.
  cbn [run]. destruct (step password files e s) as [s1 a1]. cbn [fst snd].
  destruct (run password files es s1). reflexivity.
Qed.

(** After [Pause] the connection is [Ready] or [Paused], when it was
    [Uploading] or [Ready] before. *)
Lemma onData_pause_status password files s :
  status (conn s) = UCS.Uploading \/ status (conn s) = UCS.Ready ->
  snd (onData password files (Some Pause) s) = [] /\
  (status (conn (fst (onData password files (Some Pause) s))) = UCS.Ready \/
   status (conn (fst (onData password files (Some Pause) s))) = UCS.Paused).
Proof.
  intros [H|H]; unfold onData, is_status; rewrite H; simpl; auto.
Qed.

(** C2. Started at offset 0, the chunks of a file, in emission order,
    start where the previous one ended, their payloads concatenate to the
    file's bytes, and only the last one is final. Paused after any number
    of chunks and resumed with [Start] on the same file at an offset
    [a] between the start offset and the end of what was sent, the
    resumed chunks start at [a] and are contiguous (no byte below [a] is
    sent again, no gap), the bytes sent before [a] followed by the
    resumed payloads are exactly the bytes from the start offset to the
    end of the file, and only the last resumed chunk is final. *)
Theorem transfer_reconstructs_and_resumes :
  (forall (password : string) (files : list UploadedFile) (c : UploaderConnection)
          (t : option ChunkStep) (fileName : string) (file : UploadedFile) (n : nat),
     validateOffset files fileName 0 = Some file ->
     status c = UCS.Ready \/ status c = UCS.Paused ->
     (Z.to_nat (size file / MAX_CHUNK_SIZE) < n)%nat ->
     let acts := snd (run password files
                         (EvData (Some (Start fileName 0)) :: repeat EvTimeout n)
                         (mkState c t)) in
     chunk_payloads acts = file_data file /\
     contiguous_from 0 acts = Some (size file) /\
     (exists k, chunk_finals acts = repeat false k ++ [true])) /\
  (forall (password : string) (files : list UploadedFile) (c : UploaderConnection)
          (t : option ChunkStep) (fileName : string) (file : UploadedFile)
          (o0 a : Z) (k m : nat),
     validateOffset files fileName o0 = Some file ->
     status c = UCS.Ready \/ status c = UCS.Paused ->
     0 <= o0 ->
     let before := run password files
                     (EvData (Some (Start fileName o0)) :: repeat EvTimeout k)
                     (mkState c t) in
     o0 <= a <= o0 + Z.of_nat (length (chunk_payloads (snd before))) ->
     (Z.to_nat ((size file - a) / MAX_CHUNK_SIZE) < m)%nat ->
     let after := snd (run password files
                         (EvData (Some Pause) :: EvData (Some (Start fileName a))
                            :: repeat EvTimeout m) (fst before)) in
     contiguous_from a after = Some (size file) /\
     chunk_payloads after = blob_slice file a (size file) /\
     take (Z.to_nat (a - o0)) (chunk_payloads (snd before)) ++ chunk_payloads after
       = blob_slice file o0 (size file) /\
     (exists j, chunk_finals after = repeat false j ++ [true])).
Proof.
  split.
  - intros password files c t fileName file n Hv Hs Hn. cbv zeta.
    rewrite run_cons, run_timeouts. cbn [step].
    rewrite (onData_start_accepted _ _ _ _ _ _ _ Hv Hs). cbn [fst snd app].
    pose proof (validateOffset_bound _ _ _ _ Hv).
    destruct (timeouts_drain n (mkState (mkConn UCS.Uploading (completedFiles c)
                (totalFiles c) (0, size file) (client c) (Some fileName) (Some 0))
                (Some (mkStep fileName file 0))) fileName file 0)
      as (Hp & Hc & Hf & _); [reflexivity | lia | rewrite Z.sub_0_r; exact Hn |].
    rewrite Hp, blob_slice_full. auto.
  - intros password files c t fileName file o0 a k m Hv Hs Ho0. cbv zeta.
    pose proof (validateOffset_bound _ _ _ _ Hv) as Hsz.
    rewrite run_cons, run_timeouts. cbn [step].
    rewrite (onData_start_accepted _ _ _ _ _ _ _ Hv Hs). cbn [fst snd app].
    set (s1 := mkState (mkConn UCS.Uploading (completedFiles c) (totalFiles c)
                 (o0, size file) (client c) (Some fileName) (Some o0))
                 (Some (mkStep fileName file o0))).
    destruct (timeouts_partial k s1 fileName file o0)
      as (o' & Ho' & Hp & Hc & Hst); [reflexivity | lia |].
    rewrite Hp, length_blob_slice by lia. intros Ha Hm.
    set (s2 := fst (timeouts k s1)) in *.
    assert (Hpause : status (conn s2) = UCS.Uploading \/ status (conn s2) = UCS.Ready)
      by (destruct Hst as [[_ ->] | (_ & _ & ->)]; auto).
    destruct (onData_pause_status password files s2 Hpause) as [Hpa Hps].
    rewrite run_cons. cbn [step]. rewrite Hpa, app_nil_l.
    rewrite run_cons, run_timeouts. cbn [step].
    destruct (onData password files (Some Pause) s2) as [[c3 t3] a3] eqn:Hs3.
    cbn [fst conn] in Hps. cbn [fst].
    assert (Hva : validateOffset files fileName a = Some file)
      by (apply (validateOffset_again _ _ o0); [exact Hv | lia]).
    rewrite (onData_start_accepted _ _ _ _ _ _ _ Hva Hps). cbn [fst snd app].
    destruct (timeouts_drain m (mkState (mkConn UCS.Uploading (completedFiles c3)
                (totalFiles c3) (a, size file) (client c3) (Some fileName) (Some a))
                (Some (mkStep fileName file a))) fileName file a)
      as (Hp2 & Hc2 & Hf2 & _); [reflexivity | lia | exact Hm |].
    rewrite Hp2. repeat split; auto.
    rewrite take_blob_slice by lia.
    replace (o0 + Z.of_nat (Z.to_nat (a - o0))) with a by lia.
    apply blob_slice_app; lia.
Qed.

Lemma validateOffset_movie o :
  0 <= o <= 300000 -> validateOffset [movie] (getFileName movie) o = Some movie.
Proof.
  intros Ho. unfold validateOffset. cbn [List.find].
  rewrite size_movie, String.eqb_refl.
  replace (o <=? 300000) with true by (symmetry; apply Z.leb_le; lia).
  reflexivity.
Qed.

Lemma transfer_reconstructs_and_resumes_witness :
  let before := run "" [movie]
                  (EvData (Some (Start (getFileName movie) 0)) :: repeat EvTimeout 1)
                  (mkState readyConn None) in
  let after := snd (run "" [movie]
                      (EvData (Some Pause) :: EvData (Some (Start (getFileName movie) 131072))
                         :: repeat EvTimeout 2) (fst before)) in
  (0 <= 131072 <= 0 + Z.of_nat (length (chunk_payloads (snd before)))) /\
  (chunk_payloads (snd (run "" [movie]
                          (EvData (Some (Start (getFileName movie) 0)) :: repeat EvTimeout 3)
                          (mkState readyConn None))) = file_data movie) /\
  contiguous_from 131072 after = Some (size movie) /\
  take (Z.to_nat (131072 - 0)) (chunk_payloads (snd before)) ++ chunk_payloads after
    = blob_slice movie 0 (size movie).
Proof.
  assert (Hlen : 0 <= 131072 <= 0 + Z.of_nat (length (chunk_payloads (snd (run "" [movie]
                  (EvData (Some (Start (getFileName movie) 0)) :: repeat EvTimeout 1)
                  (mkState readyConn None)))))).
  { vm_compute. split; discriminate. }
  cbv zeta. split; [exact Hlen|]. split.
  - apply (proj1 transfer_reconstructs_and_resumes);
      [apply validateOffset_movie; lia | left; reflexivity |
       rewrite size_movie; vm_compute; lia].
  - destruct ((proj2 transfer_reconstructs_and_resumes) "" [movie] readyConn None
                (getFileName movie) movie 0 131072 1%nat 2%nat) as (Hc & _ & Ht & _);
      [apply validateOffset_movie; lia | left; reflexivity | lia |
       exact Hlen | rewrite size_movie; vm_compute; lia | ].
    split; [exact Hc | exact Ht].
Defined.

(** ** Rejected [Start] *)

Lemma validateOffset_none files fileName offset :
  ~ (exists f, In f files /\ getFileName f = fileName /\ offset <= size f) ->
  validateOffset files fileName offset = None.
Proof.
  intros Hno. unfold validateOffset.
  destruct (List.find _ files) as [g|] eqn:Hg; [|reflexivity].
  exfalso. apply find_some in Hg as [Hin Hp].
  apply andb_true_iff in Hp as [Hn Hle].
  apply String.eqb_eq in Hn. apply Z.leb_le in Hle. eauto.
Qed.

(** C3. A [Start{fileName, offset}] received while [Ready] or [Paused] is
    rejected, the connection marked [Closed] and closed, unless some
    offered file has that name and a size of at least [offset]; in
    particular whenever [offset] exceeds the size of every file of that
    name, whatever that size, 0 included. *)
Theorem start_rejected_unless_valid :
  forall (password : string) (files : list UploadedFile) (c : UploaderConnection)
         (t : option ChunkStep) (fileName : string) (offset : Z),
    status c = UCS.Ready \/ status c = UCS.Paused ->
    (~ (exists f, In f files /\ getFileName f = fileName /\ offset <= size f) \/
     (forall f, In f files -> getFileName f = fileName -> size f < offset)) ->
    onData password files (Some (Start fileName offset)) (mkState c t) =
    (mkState (set_status c UCS.Closed) t, [CloseConn]).
Proof.
  intros password files c t fileName offset _ Hno.
  rewrite onData_start_rejected; [reflexivity|].
  apply validateOffset_none. intros (f & Hin & Hn & Hle).
  destruct Hno as [Hno | Hlt]; [eauto | specialize (Hlt f Hin Hn); lia].
Qed.

Lemma start_rejected_unless_valid_witness :
  size emptyFile = 0 /\
  onData "" [emptyFile] (Some (Start "empty.txt" 1)) (mkState readyConn None) =
  (mkState (set_status readyConn UCS.Closed) None, [CloseConn]).
Proof.
  split; [reflexivity|].
  apply start_rejected_unless_valid; [left; reflexivity|].
  right. intros f [<-|[]] _. vm_compute. reflexivity.
Defined.

(** ** The password gate *)

(** A connection that may send a chunk now or later without passing
    through the handshake again: [Ready], [Uploading] or [Paused], or
    with a chunk step pending. *)
Definition active (s : ConnState) : bool :=
  is_status (conn s) UCS.Ready || is_status (conn s) UCS.Uploading
  || is_status (conn s) UCS.Paused
  || match sendChunkTimeout s with Some _ => true | None => false end.

Lemma run_app password files l1 l2 s :
  run password files (l1 ++ l2) s =
  (fst (run password files l2 (fst (run password files l1 s))),
   snd (run password files l1 s) ++ snd (run password files l2 (fst (run password files l1 s)))).
Proof.
  induction l1 as [|e l1 IH] in s |- *.
  - cbn [app run fst snd]. destruct (run password files l2 s). reflexivity.
  - rewrite <- app_comm_cons, !run_cons, IH. cbn [fst snd].
    rewrite app_assoc. reflexivity.
Qed.

Ltac no_chunk :=
  let H := fresh in
  intros H; cbn in H;
  repeat (destruct H as [H|H]; [discriminate H|]); contradiction.

(** Only [onChunkTimeout] sends chunks, and only from a pending step. *)
Lemma chunk_sent_from_active password files e s fileName offset bytes final :
  In (Send (Chunk fileName offset bytes final)) (snd (step password files e s)) ->
  active s = true.
Proof.
  destruct s as [c [st|]]; unfold active; cbn [sendChunkTimeout conn];
    [rewrite !orb_true_r; reflexivity|].
  destruct e as [[m|]| |]; cbn [step].
  - destruct m; unfold onData; cbn [conn sendChunkTimeout];
      repeat match goal with
      | |- context [if ?b then _ else _] => destruct b
      | |- context [match validateOffset ?f ?n ?o with _ => _ end] =>
          destruct (validateOffset f n o)
      end; no_chunk.
  - no_chunk.
  - no_chunk.
  - no_chunk.
Qed.

(** With a password, a connection becomes active only through a
    [UsePassword] carrying exactly that password, received while
    [Authenticating] or [InvalidPassword]; the connection is then
    [Ready]. *)
Lemma step_activates password files e s :
  truthy password = true ->
  active s = false ->
  active (fst (step password files e s)) = true ->
  e = EvData (Some (UsePassword password)) /\
  (status (conn s) = UCS.Authenticating \/ status (conn s) = UCS.InvalidPassword) /\
  status (conn (fst (step password files e s))) = UCS.Ready.
Proof.
  intros Hpw.
  destruct s as [[st cf tf pr cl un uo] [t|]]; unfold active, is_status;
    cbn [sendChunkTimeout conn status]; [rewrite !orb_true_r; discriminate|].
  destruct st; cbn [UCS.eqb orb]; try discriminate; intros _;
  destruct e as [[m|]| |]; cbn [step]; try (cbn; discriminate);
  destruct m; unfold onData, is_status; cbn [conn sendChunkTimeout status];
  rewrite ?Hpw; cbn [UCS.eqb negb andb orb];
  repeat match goal with
  | |- context [String.eqb ?p ?q] => destruct (String.eqb_spec p q)
  | |- context [match validateOffset ?f ?n ?o with _ => _ end] =>
      destruct (validateOffset f n o)
  end; cbn; try discriminate; intros _; subst; auto.
Qed.

Lemma active_history password files evs :
  truthy password = true ->
  active (fst (run password files evs (initConn files))) = true ->
  exists pre post,
    evs = pre ++ EvData (Some (UsePassword password)) :: post /\
    (status (conn (fst (run password files pre (initConn files)))) = UCS.Authenticating \/
     status (conn (fst (run password files pre (initConn files)))) = UCS.InvalidPassword) /\
    status (conn (fst (run password files (pre ++ [EvData (Some (UsePassword password))])
                         (initConn files)))) = UCS.Ready.
Proof.
  intros Hpw. induction evs as [|e evs IH] using rev_ind.
  - cbn. discriminate.
  - rewrite run_app. cbn [fst]. intros Ha.
    set (s := fst (run password files evs (initConn files))) in *.
    assert (Hstep : fst (run password files [e] s) = fst (step password files e s)).
    { cbn [run]. destruct (step password files e s). reflexivity. }
    rewrite Hstep in Ha.
    destruct (active s) eqn:Has.
    + destruct (IH eq_refl) as (pre & post & -> & Hst & Hr).
      exists pre, (post ++ [e]). split; [|split; auto].
      rewrite <- app_assoc. reflexivity.
    + destruct (step_activates password files e s Hpw Has Ha) as (-> & Hst & Hr).
      exists evs, []. split; [reflexivity|]. split; [exact Hst|].
      rewrite run_app. cbn [fst]. fold s. rewrite Hstep. exact Hr.
Qed.

(** C4. With a (non-empty) password configured, whatever the messages
    received on a connection, any step that sends it a [Chunk] comes after
    a [UsePassword] whose candidate is exactly the password, received while
    [Authenticating] or [InvalidPassword], that moved the connection to
    [Ready]. *)
Theorem chunk_requires_password :
  forall (password : string) (files : list UploadedFile) (evs : list Event) (e : Event)
         (fileName : string) (offset : Z) (bytes : list Byte.byte) (final : bool),
    password <> "" ->
    In (Send (Chunk fileName offset bytes final))
       (snd (step password files e (fst (run password files evs (initConn files))))) ->
    exists pre post,
      evs = pre ++ EvData (Some (UsePassword password)) :: post /\
      (status (conn (fst (run password files pre (initConn files)))) = UCS.Authenticating \/
       status (conn (fst (run password files pre (initConn files)))) = UCS.InvalidPassword) /\
      status (conn (fst (run password files (pre ++ [EvData (Some (UsePassword password))])
                           (initConn files)))) = UCS.Ready.
Proof.
  intros password files evs e fileName offset bytes final Hne Hin.
  apply active_history.
  - unfold truthy. destruct (String.eqb_spec password ""); [contradiction | reflexivity].
  - eapply chunk_sent_from_active. exact Hin.
Qed.

Lemma chunk_requires_password_witness :
  "pizza" <> "" /\
  In (Send (Chunk "empty.txt" 0 [] true))
     (snd (step "pizza" [emptyFile] EvTimeout
             (fst (run "pizza" [emptyFile] authedStart (initConn [emptyFile]))))) /\
  exists pre post,
    authedStart = pre ++ EvData (Some (UsePassword "pizza")) :: post /\
    (status (conn (fst (run "pizza" [emptyFile] pre (initConn [emptyFile]))))
       = UCS.Authenticating \/
     status (conn (fst (run "pizza" [emptyFile] pre (initConn [emptyFile]))))
       = UCS.InvalidPassword) /\
    status (conn (fst (run "pizza" [emptyFile] (pre ++ [EvData (Some (UsePassword "pizza"))])
                         (initConn [emptyFile])))) = UCS.Ready.
Proof.
  assert (Hne : "pizza" <> "") by discriminate.
  assert (Hin : In (Send (Chunk "empty.txt" 0 [] true))
     (snd (step "pizza" [emptyFile] EvTimeout
             (fst (run "pizza" [emptyFile] authedStart (initConn [emptyFile])))))).
  { vm_compute. left. reflexivity. }
  split; [exact Hne|]. split; [exact Hin|].
  exact (chunk_requires_password "pizza" [emptyFile] authedStart EvTimeout
           "empty.txt" 0 [] true Hne Hin).
Defined.

(** ** Out-of-state handshake messages *)

(** C6 (code bug). A [UsePassword] carrying the configured password makes
    the uploader send [Info] whatever the connection's state, since the
    send sits outside the status guard; on a fresh connection, as its
    first message, it yields the file catalog although no [RequestInfo]
    was ever received, and the connection stays [Pending]. *)
Theorem info_without_requestinfo :
  (forall (password : string) (files : list UploadedFile) (s : ConnState),
     snd (onData password files (Some (UsePassword password)) s)
     = [Send (Info (catalog files))]) /\
  run "pizza" [emptyFile] [EvData (Some (UsePassword "pizza"))] (initConn [emptyFile])
  = (initConn [emptyFile], [Send (Info (catalog [emptyFile]))]) /\
  run "" [emptyFile] [EvData (Some (UsePassword ""))] (initConn [emptyFile])
  = (initConn [emptyFile], [Send (Info (catalog [emptyFile]))]).
Proof.
  split; [|split; reflexivity].
  intros password files s. unfold onData. rewrite String.eqb_refl. reflexivity.
Qed.

(** C8 (code bug). A [RequestInfo] received outside [Pending] leaves the
    connection unchanged but is still answered: [PasswordRequired] when a
    password is configured, the [Info] catalog otherwise. *)
Theorem requestinfo_out_of_state_replies :
  forall (password : string) (files : list UploadedFile) (s : ConnState) (ci : ClientInfo),
    status (conn s) <> UCS.Pending ->
    onData password files (Some (RequestInfo ci)) s
    = (s, [Send (if truthy password then PasswordRequired None
                 else Info (catalog files))]).
Proof.
  intros password files [c t] ci Hst. cbn [conn] in Hst.
  assert (Hp : is_status c UCS.Pending = false).
  { unfold is_status. destruct (UCS.eqb (status c) UCS.Pending) eqn:E; [|reflexivity].
    apply UCS.eqb_eq in E. contradiction. }
  unfold onData. cbn [conn sendChunkTimeout]. rewrite Hp.
  destruct (truthy password); reflexivity.
Qed.

Lemma requestinfo_out_of_state_replies_witness :
  let s := fst (run "" [emptyFile] [EvData (Some (RequestInfo firefox))] (initConn [emptyFile])) in
  status (conn s) = UCS.Ready /\
  onData "" [emptyFile] (Some (RequestInfo firefox)) s
  = (s, [Send (Info (catalog [emptyFile]))]).
Proof.
  cbv zeta. split; [reflexivity|].
  apply (requestinfo_out_of_state_replies "" [emptyFile]). cbn. discriminate.
Defined.

(** ** Transport close *)

(** C7. On transport close the pending chunk step is cancelled, nothing is
    sent, and the status becomes [Closed], except that [InvalidPassword]
    and [Done] are kept; the rest of the record is unchanged. *)
Theorem close_transition :
  forall (password : string) (files : list UploadedFile) (s : ConnState),
    step password files EvClose s
    = (mkState (set_status (conn s)
                  (match status (conn s) with
                   | UCS.InvalidPassword => UCS.InvalidPassword
                   | UCS.Done => UCS.Done
                   | _ => UCS.Closed
                   end)) None, []).
Proof.
  intros password files [[st cf tf pr cl un uo] t].
  destruct st; reflexivity.
Qed.

(** ** Report connections *)

Lemma sessRun_connects files s ids :
  sessRun files s (map SConnect ids) =
  (mkSession (map (fun id => mkEntry id (initConn files)) (rev ids) ++ connections s)
     (listenerConnections s) (rev ids ++ registered s), []).
Proof.
  induction ids as [|id ids IH] in s |- *; [destruct s; reflexivity|].
  cbn [map sessRun sessStep]. rewrite IH. cbn [connections listenerConnections registered].
  cbn [rev]. rewrite map_app, <- !app_assoc. reflexivity.
Qed.

(** C5 (code bug). The listener broadcasts to the [connections] it closed
    over when the effect ran, which in a session whose [peer], [files]
    and [password] stay the same is the empty array of the first render.
    However many downloaders have connected, a report connection makes
    the uploader send no [Report] and close no connection, the report
    connection included; its only effect is the navigation to
    ['/reported'], and every connection's record and pending chunk step
    are left as they are. *)
Theorem report_misses_connected :
  forall (files : list UploadedFile) (ids : list nat) (reportConn : nat),
    let s := fst (sessRun files sessionMount (map SConnect ids)) in
    map dataConnection (connections s) = rev ids /\
    sessStep files s (SReport reportConn) = (s, [Navigate "/reported"]).
Proof.
  intros files ids reportConn. cbv zeta. rewrite sessRun_connects.
  cbn [fst connections listenerConnections registered sessStep].
  rewrite app_nil_r, map_map. cbn [dataConnection]. rewrite map_id.
  split; reflexivity.
Qed.

(** ** Destroying a channel *)

(** C9. For any non-empty slug string, [POST /api/destroy] answers
    [200 {success: true}] whether or not the slug is in the directory;
    the answer and the new directory depend only on the slug field (no
    secret or other field is read), and the slug resolves to nothing
    afterwards. *)
Theorem destroy_unauthenticated :
  forall (body : gmap string JSValue) (dir : gmap string ChannelRecord) (slug : string),
    body !! "slug" = Some (JString slug) ->
    slug <> "" ->
    fst (POST body dir) = mkResponse (SuccessBody true) 200 /\
    (snd (POST body dir)) !! slug = None /\
    (forall body', body' !! "slug" = body !! "slug" -> POST body' dir = POST body dir).
Proof.
  intros body dir slug Hb Hne.
  assert (Hf : falsy (JString slug) = false).
  { cbn. destruct (String.eqb_spec slug ""); [contradiction | reflexivity]. }
  split; [|split].
  - unfold POST, body_slug. rewrite Hb, Hf. cbn [destroyChannel].
    destruct (dir !! slug); reflexivity.
  - unfold POST, body_slug. rewrite Hb, Hf. cbn [destroyChannel].
    destruct (dir !! slug) as [r|] eqn:Hr; cbn [snd]; [|exact Hr].
    apply lookup_delete_None. right. apply lookup_delete_None. right.
    apply lookup_delete_eq.
  - intros body' Hb'. unfold POST, body_slug. rewrite Hb'. reflexivity.
Qed.

Lemma destroy_unauthenticated_witness :
  fst (POST (<["secret" := JString "wrong"]> (<["slug" := JString "A1b2C3"]> ∅)) pizzaDir)
    = mkResponse (SuccessBody true) 200 /\
  fst (POST (<["slug" := JString "A1b2C3"]> ∅) ∅) = mkResponse (SuccessBody true) 200.
Proof.
  split.
  - apply (destroy_unauthenticated _ pizzaDir "A1b2C3"); [reflexivity | discriminate].
  - apply (destroy_unauthenticated _ ∅ "A1b2C3"); [reflexivity | discriminate].
Defined.

(** C10. A body without a [slug] field, or with an empty slug, is answered
    [400 {error: 'Slug is required'}] and the directory is left as it
    is. *)
Theorem destroy_requires_slug :
  forall (body : gmap string JSValue) (dir : gmap string ChannelRecord),
    body !! "slug" = None \/ body !! "slug" = Some (JString "") ->
    POST body dir = (mkResponse (ErrorBody "Slug is required") 400, dir).
Proof.
  intros body dir [Hb|Hb]; unfold POST, body_slug; rewrite Hb; reflexivity.
Qed.

Lemma destroy_requires_slug_witness :
  POST (<["secret" := JString "s3cr3t"]> ∅) pizzaDir
    = (mkResponse (ErrorBody "Slug is required") 400, pizzaDir) /\
  POST (<["slug" := JString ""]> ∅) pizzaDir
    = (mkResponse (ErrorBody "Slug is required") 400, pizzaDir).
Proof.
  split; apply destroy_requires_slug; [left | right]; reflexivity.
Defined.

(** * Further properties of the uploader connection *)

Ltac split_branches :=
  repeat match goal with
  | |- context [if ?b then _ else _] => destruct b eqn:?
  | |- context [match validateOffset ?f ?n ?o with _ => _ end] =>
      destruct (validateOffset f n o) eqn:?
  end.

Lemma final_chunks_app a b : final_chunks (a ++ b) = final_chunks a + final_chunks b.
Proof.
  unfold final_chunks, chunk_finals. rewrite flat_map_app, filter_app, length_app. lia.
Qed.

(** Each step adds to [completedFiles] the number of final chunks it sends. *)
Lemma step_completed password files e s :
  completedFiles (conn (fst (step password files e s)))
  = completedFiles (conn s) + final_chunks (snd (step password files e s)).
Proof.
  destruct s as [c [[fn f o]|]]; destruct e as [[m|]| |]; cbn [step];
    try (destruct m; unfold onData; cbn [conn sendChunkTimeout]);
    unfold onError, onClose, onChunkTimeout; cbn [conn sendChunkTimeout];
    split_branches; unfold final_chunks; cbn;
    repeat case_decide; cbn; try lia; tauto.
Qed.

Lemma run_completed password files evs s :
  completedFiles (conn (fst (run password files evs s)))
  = completedFiles (conn s) + final_chunks (snd (run password files evs s)).
Proof.
  induction evs as [|e evs IH] in s |- *; [unfold final_chunks; cbn; lia|].
  rewrite run_cons. cbn [fst snd]. rewrite IH, step_completed, final_chunks_app. lia.
Qed.

(** X1. Whatever the events on a connection, its [completedFiles] counter
    equals the number of final chunks sent on it, and [totalFiles] stays
    the number of offered files. *)
Theorem completed_counts_final_chunks :
  forall (password : string) (files : list UploadedFile) (evs : list Event),
    completedFiles (conn (fst (run password files evs (initConn files))))
    = final_chunks (snd (run password files evs (initConn files))) /\
    totalFiles (conn (fst (run password files evs (initConn files))))
    = Z.of_nat (length files).
Proof.
  intros password files evs. split.
  - rewrite run_completed. reflexivity.
  - change (Z.of_nat (length files)) with (totalFiles (conn (initConn files))).
    generalize (initConn files) as s.
    induction evs as [|e evs IH]; intros s; [reflexivity|].
    rewrite run_cons. cbn [fst]. rewrite IH.
    destruct s as [c [[fn f o]|]]; destruct e as [[m|]| |]; cbn [step];
      try (destruct m; unfold onData; cbn [conn sendChunkTimeout]);
      unfold onError, onClose, onChunkTimeout; cbn [conn sendChunkTimeout];
      split_branches; reflexivity.
Qed.

Lemma step_tracks password files e s :
  tracks_step s -> tracks_step (fst (step password files e s)).
Proof.
  destruct s as [c [[fn f o]|]]; unfold tracks_step; cbn [sendChunkTimeout];
    destruct e as [[m|]| |]; cbn [step];
    try (destruct m; unfold onData; cbn [conn sendChunkTimeout]);
    unfold onError, onClose, onChunkTimeout; cbn [conn sendChunkTimeout];
    split_branches; cbn; auto;
    repeat match goal with
    | H : validateOffset _ _ _ = Some _ |- _ => apply validateOffset_bound in H
    end; intuition lia.
Qed.

(** X2. Whatever the events on a connection, while a chunk step is
    pending the record's [uploadingFileName], [uploadingOffset] and
    [currentFileProgress] are the step's file name, its offset and the
    pair (offset, file size), and that offset never exceeds the file's
    size. *)
Theorem upload_fields_track_step :
  forall (password : string) (files : list UploadedFile) (evs : list Event),
    tracks_step (fst (run password files evs (initConn files))).
Proof.
  intros password files evs.
  assert (H0 : tracks_step (initConn files)) by exact I.
  revert H0. generalize (initConn files) as s.
  induction evs as [|e evs IH]; intros s Hs; [exact Hs|].
  rewrite run_cons. cbn [fst]. apply IH, step_tracks, Hs.
Qed.

Lemma step_closed_idle password files e s :
  status (conn s) = UCS.Closed -> sendChunkTimeout s = None ->
  status (conn (fst (step password files e s))) = UCS.Closed /\
  sendChunkTimeout (fst (step password files e s)) = None /\
  chunk_sizes (snd (step password files e s)) = [].
Proof.
  destruct s as [[st cf tf pr cl un uo] t]; cbn [conn status sendChunkTimeout].
  intros -> ->.
  destruct e as [[m|]| |]; cbn [step];
    try (destruct m; unfold onData; cbn [conn sendChunkTimeout]);
    unfold onError, onClose, onChunkTimeout, is_status; cbn [conn sendChunkTimeout status];
    split_branches; cbn in *; auto; discriminate.
Qed.

Lemma chunk_sizes_app a b : chunk_sizes (a ++ b) = chunk_sizes a ++ chunk_sizes b.
Proof. unfold chunk_sizes. apply flat_map_app. Qed.

(** X3. Once a transport close has been handled on a connection that was
    not [InvalidPassword] or [Done], it stays [Closed] with no pending
    chunk step whatever events follow, and it never sends a chunk again. *)
Theorem closed_stays_closed :
  forall (password : string) (files : list UploadedFile) (s : ConnState) (evs : list Event),
    status (conn s) <> UCS.InvalidPassword ->
    status (conn s) <> UCS.Done ->
    let s' := fst (run password files (EvClose :: evs) s) in
    status (conn s') = UCS.Closed /\
    sendChunkTimeout s' = None /\
    chunk_sizes (snd (run password files (EvClose :: evs) s)) = [].
Proof.
  intros password files s evs Hi Hd. cbv zeta.
  rewrite run_cons.
  assert (Hc : status (conn (fst (step password files EvClose s))) = UCS.Closed /\
               sendChunkTimeout (fst (step password files EvClose s)) = None /\
               snd (step password files EvClose s) = []).
  { destruct s as [[st cf tf pr cl un uo] t]; cbn in Hi, Hd |- *.
    destruct st; cbn; try contradiction; auto. }
  destruct Hc as (Hst & Ht & Ha). rewrite Ha. cbn [fst snd app].
  revert Hst Ht. generalize (fst (step password files EvClose s)) as s1.
  induction evs as [|e evs IH]; intros s1 Hst Ht; [auto|].
  rewrite run_cons. cbn [fst snd].
  destruct (step_closed_idle password files e s1 Hst Ht) as (H1 & H2 & H3).
  destruct (IH _ H1 H2) as (H4 & H5 & H6).
  rewrite chunk_sizes_app, H3, H6. auto.
Qed.

Lemma closed_stays_closed_witness :
  status (conn (mkState readyConn None)) <> UCS.InvalidPassword /\
  status (conn (mkState readyConn None)) <> UCS.Done /\
  status (conn (fst (run "" [emptyFile] (EvClose :: authedStart) (mkState readyConn None))))
    = UCS.Closed.
Proof.
  assert (H1 : status (conn (mkState readyConn None)) <> UCS.InvalidPassword) by discriminate.
  assert (H2 : status (conn (mkState readyConn None)) <> UCS.Done) by discriminate.
  split; [exact H1|]. split; [exact H2|].
  exact (proj1 (closed_stays_closed "" [emptyFile] (mkState readyConn None) authedStart H1 H2)).
Defined.

Lemma wrong_attempts password files wrongs c t :
  (status c = UCS.Authenticating \/ status c = UCS.InvalidPassword) ->
  Forall (fun w => w <> password) wrongs ->
  let r := run password files
             (map (fun w => EvData (Some (UsePassword w))) wrongs
              ++ [EvData (Some (UsePassword password))]) (mkState c t) in
  status (conn (fst r)) = UCS.Ready /\
  snd r = repeat (Send (PasswordRequired (Some "Invalid password"))) (length wrongs)
          ++ [Send (Info (catalog files))].
Proof.
  intros Hs Hw. cbv zeta.
  induction Hw as [|w wrongs Hne Hw IH] in c, t, Hs |- *.
  - cbn [map app run step onData conn sendChunkTimeout].
    rewrite String.eqb_refl. unfold is_status.
    destruct Hs as [-> | ->]; split; reflexivity.
  - cbn [map app]. rewrite run_cons. cbn [step].
    assert (Hst : onData password files (Some (UsePassword w)) (mkState c t)
                  = (mkState (if is_status c UCS.Authenticating
                              then set_status c UCS.InvalidPassword else c) t,
                     [Send (PasswordRequired (Some "Invalid password"))])).
    { unfold onData. cbn [conn sendChunkTimeout].
      destruct (String.eqb_spec w password); [contradiction|].
      destruct (is_status c UCS.Authenticating); reflexivity. }
    rewrite Hst. cbn [fst snd].
    destruct (IH (if is_status c UCS.Authenticating
                  then set_status c UCS.InvalidPassword else c) t) as [H1 H2].
    { unfold is_status. destruct Hs as [Hs|Hs]; rewrite Hs; cbn; rewrite ?Hs; auto. }
    split; [exact H1|]. rewrite H2. reflexivity.
Qed.

(** X4. With a password configured, a fresh connection that sends
    [RequestInfo], then any number of wrong passwords, then the right one
    is [Ready]; it was answered [PasswordRequired], then one
    [PasswordRequired "Invalid password"] per wrong attempt (there is no
    attempt limit), then the [Info] catalog. *)
Theorem password_retries_unlimited :
  forall (password : string) (files : list UploadedFile) (ci : ClientInfo)
         (wrongs : list string),
    password <> "" ->
    Forall (fun w => w <> password) wrongs ->
    let r := run password files
               (EvData (Some (RequestInfo ci))
                :: map (fun w => EvData (Some (UsePassword w))) wrongs
                ++ [EvData (Some (UsePassword password))]) (initConn files) in
    status (conn (fst r)) = UCS.Ready /\
    snd r = Send (PasswordRequired None)
            :: repeat (Send (PasswordRequired (Some "Invalid password"))) (length wrongs)
            ++ [Send (Info (catalog files))].
Proof.
  intros password files ci wrongs Hne Hw. cbv zeta.
  rewrite run_cons.
  assert (Ht : truthy password = true).
  { unfold truthy. destruct (String.eqb_spec password ""); [contradiction | reflexivity]. }
  assert (Hst : step password files (EvData (Some (RequestInfo ci))) (initConn files)
                = (mkState (with_client (mkConn UCS.Pending 0 (Z.of_nat (length files)) (0, 1)
                                          None None None) ci UCS.Authenticating) None,
                   [Send (PasswordRequired None)])).
  { cbn [step]. unfold onData. cbn [conn sendChunkTimeout initConn]. rewrite Ht. reflexivity. }
  rewrite Hst. cbn [fst snd].
  destruct (wrong_attempts password files wrongs
              (with_client (mkConn UCS.Pending 0 (Z.of_nat (length files)) (0, 1) None None None)
                 ci UCS.Authenticating) None) as [H1 H2]; [left; reflexivity | exact Hw |].
  split; [exact H1|]. rewrite H2. reflexivity.
Qed.

Lemma password_retries_unlimited_witness :
  "pizza" <> "" /\
  Forall (fun w => w <> "pizza") ["Pizza"; "pizza "; ""] /\
  status (conn (fst (run "pizza" [emptyFile]
    (EvData (Some (RequestInfo firefox))
     :: map (fun w => EvData (Some (UsePassword w))) ["Pizza"; "pizza "; ""]
     ++ [EvData (Some (UsePassword "pizza"))]) (initConn [emptyFile])))) = UCS.Ready.
Proof.
  assert (H1 : "pizza" <> "") by discriminate.
  assert (H2 : Forall (fun w => w <> "pizza") ["Pizza"; "pizza "; ""]).
  { repeat constructor; discriminate. }
  split; [exact H1|]. split; [exact H2|].
  exact (proj1 (password_retries_unlimited "pizza" [emptyFile] firefox _ H1 H2)).
Defined.

(** X5. Run to its end, the chunk step from a valid offset [o] sends
    [(size - o) / CHUNK_SIZE] full chunks and then one final chunk of
    [(size - o) mod CHUNK_SIZE] bytes: when the bytes left are a multiple
    of the chunk size (none left included), the final chunk is empty. *)
Theorem chunk_sizes_exact :
  forall (n : nat) (s : ConnState) (fileName : string) (file : UploadedFile) (o : Z),
    sendChunkTimeout s = Some (mkStep fileName file o) ->
    0 <= o <= size file ->
    (Z.to_nat ((size file - o) / MAX_CHUNK_SIZE) < n)%nat ->
    chunk_sizes (snd (timeouts n s))
    = repeat MAX_CHUNK_SIZE (Z.to_nat ((size file - o) / MAX_CHUNK_SIZE))
      ++ [(size file - o) mod MAX_CHUNK_SIZE] /\
    chunk_finals (snd (timeouts n s))
    = repeat false (Z.to_nat ((size file - o) / MAX_CHUNK_SIZE)) ++ [true].
Proof.
  induction n as [|n IH]; intros [c t] fileName file o Ht Ho Hn; [lia|].
  simpl in Ht; subst t. pose proof MAX_CHUNK_SIZE_pos.
  rewrite timeouts_S, onChunkTimeout_fire. cbv zeta.
  set (e := Z.min (size file) (o + MAX_CHUNK_SIZE)).
  assert (He : o <= e <= size file) by (unfold e; lia).
  destruct (e - o <? MAX_CHUNK_SIZE) eqn:Hfin.
  - rewrite timeouts_idle by reflexivity. cbn [fst snd].
    apply Z.ltb_lt in Hfin.
    assert (Hend : e = size file) by (unfold e in *; lia).
    rewrite Z.div_small, Z.mod_small by lia. cbn.
    rewrite length_blob_slice by lia. rewrite Hend. split; reflexivity.
  - apply Z.ltb_ge in Hfin.
    assert (He' : e = o + MAX_CHUNK_SIZE) by (unfold e in *; lia).
    assert (Hdiv : (size file - o) / MAX_CHUNK_SIZE
                   = (size file - e) / MAX_CHUNK_SIZE + 1).
    { replace (size file - o) with ((size file - e) + 1 * MAX_CHUNK_SIZE) by lia.
      apply Z_div_plus_full. lia. }
    assert (Hmod : (size file - o) mod MAX_CHUNK_SIZE
                   = (size file - e) mod MAX_CHUNK_SIZE).
    { replace (size file - o) with ((size file - e) + 1 * MAX_CHUNK_SIZE) by lia.
      apply Z_mod_plus_full. }
    assert (0 <= (size file - e) / MAX_CHUNK_SIZE) by (apply Z.div_pos; lia).
    destruct (IH (mkState (mkConn (status c) (completedFiles c) (totalFiles c)
              (e, size file) (client c) (uploadingFileName c) (Some e))
              (Some (mkStep fileName file e))) fileName file e)
      as (Hsz & Hfl); [reflexivity | lia | lia |].
    destruct (timeouts n _) as [s2 a2] eqn:Hrun. cbn [fst snd] in *.
    rewrite Hdiv, Hmod, Z2Nat.inj_add, Nat.add_1_r by lia.
    unfold chunk_sizes, chunk_finals in *. cbn [app flat_map repeat].
    rewrite length_blob_slice by lia. rewrite Hsz, Hfl.
    replace (e - o) with MAX_CHUNK_SIZE by lia. split; reflexivity.
Qed.

Lemma chunk_sizes_exact_witness :
  chunk_sizes (snd (timeouts 3 (mkState readyConn (Some (mkStep "movie.bin" movie 37856)))))
  = [131072; 131072; 0].
Proof.
  destruct (chunk_sizes_exact 3 (mkState readyConn (Some (mkStep "movie.bin" movie 37856)))
              "movie.bin" movie 37856 eq_refl) as [H _];
    [rewrite size_movie; lia | rewrite size_movie; vm_compute; lia |].
  rewrite H, size_movie. reflexivity.
Defined.



(** X7. Every entry of the [Info] catalog can be started at any offset up
    to its advertised size: [Start] with that name and offset is accepted,
    and the file chosen has that name and a size of at least the offset. *)
Theorem catalog_entries_startable :
  forall (files : list UploadedFile) (fi : FileInfo) (o : Z),
    In fi (catalog files) -> o <= info_size fi ->
    exists f, validateOffset files (info_fileName fi) o = Some f /\
              getFileName f = info_fileName fi /\ o <= size f.
Proof.
  intros files fi o Hin Ho. unfold catalog in Hin.
  apply in_map_iff in Hin as (g & <- & Hg). cbn [info_fileName info_size] in *.
  destruct (validateOffset files (getFileName g) o) as [f|] eqn:Hv.
  - exists f. split; [reflexivity|].
    apply find_some in Hv as [_ Hp]. apply andb_true_iff in Hp as [H1 H2].
    apply String.eqb_eq in H1. apply Z.leb_le in H2. auto.
  - exfalso. unfold validateOffset in Hv.
    pose proof (find_none _ _ Hv g Hg) as Hf. cbv beta in Hf.
    rewrite String.eqb_refl in Hf. cbn [andb] in Hf. apply Z.leb_gt in Hf. lia.
Qed.

Lemma catalog_entries_startable_witness :
  exists f, validateOffset [movie] "movie.bin" 300000 = Some f /\
            getFileName f = "movie.bin" /\ 300000 <= size f.
Proof.
  apply (catalog_entries_startable [movie] (mkFileInfo "movie.bin" (size movie) "application/octet-stream")).
  - left. reflexivity.
  - cbn [info_size]. rewrite size_movie. lia.
Defined.

(** * [useUploaderChannel] and the destroy route *)

Lemma string_app_cancel_l (p a b : string) : (p ++ a)%string = (p ++ b)%string -> a = b.
Proof.
  induction p as [|ch p IH]; cbn; [auto|]. intros H. injection H. exact IH.
Qed.

(** X8. On one page, [generateURL] gives different slugs different
    URLs, so [longURL] and [shortURL] differ when the slugs do; and a URL
    is [undefined] exactly when its slug is undefined or empty. *)
Theorem generateURL_injective :
  (forall (loc : Location) (s1 s2 : string),
     generateURL loc s1 = generateURL loc s2 -> s1 = s2) /\
  (forall (loc : Location) (slug : option string),
     slugURL loc slug = None <-> falsy_opt slug = true).
Proof.
  split.
  - intros loc s1 s2 H. unfold generateURL in H.
    apply string_app_cancel_l, string_app_cancel_l, string_app_cancel_l,
      string_app_cancel_l, string_app_cancel_l in H. exact H.
  - intros loc [s|]; cbn; [|tauto].
    destruct (truthy s); cbn; split; congruence.
Qed.

Lemma renewLoop_idle secret short evs : renewLoop secret short false evs = [].
Proof. induction evs as [|[] evs IH]; cbn; auto. Qed.

Lemma renewLoop_pending secret short evs :
  renewLoop secret short true evs
  = repeat (mkRenew short secret) (fires_before_cleanup evs).
Proof.
  induction evs as [|[] evs IH]; cbn; [reflexivity | f_equal; exact IH |].
  apply renewLoop_idle.
Qed.

(** X9. While the renewal effect runs, each timer firing sends one
    renew request, with the short slug and the secret (never the long
    slug), until the cleanup, after which none is sent; when the secret
    or the short slug is undefined or empty, no request is ever sent. *)
Theorem renewals_until_cleanup :
  forall (secret short : option string) (evs : list RenewEvent),
    renewEffect secret short evs =
    match secret, short with
    | Some s, Some sl =>
        if truthy s && truthy sl
        then repeat (mkRenew sl s) (fires_before_cleanup evs) else []
    | _, _ => []
    end.
Proof.
  intros [s|] [sl|] evs; cbn; try reflexivity.
  destruct (truthy s), (truthy sl); cbn; try reflexivity.
  apply renewLoop_pending.
Qed.

(** X10. The unload beacon is armed only when the short slug and the
    secret are truthy. Its request goes to [/api/destroy] with the short
    slug and no secret, and the route answers [200] and removes the short
    slug and the long slug of the channel it names (the directory as
    [destroyChannel] is modelled from the spec). *)
Theorem unload_beacon_destroys :
  forall (short secret : option string) (dir : gmap string ChannelRecord),
    (falsy_opt short = true \/ falsy_opt secret = true ->
     unloadBeacon short secret = None) /\
    (forall sl url body,
       short = Some sl -> unloadBeacon short secret = Some (url, body) ->
       url = "/api/destroy"%string /\
       body !! "secret" = None /\
       fst (POST body dir) = mkResponse (SuccessBody true) 200 /\
       snd (POST body dir) !! sl = None /\
       (forall r, dir !! sl = Some r -> snd (POST body dir) !! longSlug r = None)).
Proof.
  intros short secret dir. split.
  - intros H. unfold unloadBeacon. destruct short as [sl|]; [|reflexivity].
    destruct H as [H|H]; rewrite H; [reflexivity | rewrite orb_true_r; reflexivity].
  - intros sl url body -> Hb. unfold unloadBeacon in Hb.
    destruct (falsy_opt (Some sl) || falsy_opt secret) eqn:E; [discriminate|].
    injection Hb as <- <-. apply orb_false_iff in E as [E _].
    assert (Hf : falsy (JString sl) = false).
    { cbn in E |- *. unfold truthy in E. destruct (String.eqb sl ""); [discriminate | reflexivity]. }
    unfold POST, body_slug. rewrite lookup_insert_eq. rewrite Hf. cbn [destroyChannel].
    split; [reflexivity|]. split; [reflexivity|].
    destruct (dir !! sl) as [r|] eqn:Hr; cbn [fst snd].
    + split; [reflexivity|]. split.
      * apply lookup_delete_None. right. apply lookup_delete_None. right.
        apply lookup_delete_eq.
      * intros r' Hr'. injection Hr' as <-.
        apply lookup_delete_None. right. apply lookup_delete_eq.
    + split; [reflexivity|]. split; [exact Hr|]. intros r' Hr'. congruence.
Qed.

Lemma unload_beacon_destroys_witness :
  unloadBeacon (Some "A1b2C3"%string) None = None /\
  snd (POST (<["slug" := JString "A1b2C3"]> ∅) pizzaDir) !! "cheese/pepperoni/olive"%string
  = None.
Proof.
  split.
  - apply (proj1 (unload_beacon_destroys (Some "A1b2C3"%string) None ∅)). right. reflexivity.
  - destruct (proj2 (unload_beacon_destroys (Some "A1b2C3"%string) (Some "s3cr3t"%string)
                       pizzaDir) "A1b2C3" "/api/destroy" (<["slug" := JString "A1b2C3"]> ∅)
                       eq_refl eq_refl) as (_ & _ & _ & _ & H).
    exact (H pizzaChannel eq_refl).
Defined.

Lemma generateURL_injective_witness :
  slugURL (mkLocation "https:" "file.pizza" "") (Some ""%string) = None.
Proof.
  apply (proj2 (proj2 generateURL_injective (mkLocation "https:" "file.pizza" "")
                  (Some ""%string))).
  reflexivity.
Defined.

(** * [getOrCreateGlobalPeer] *)

Lemma lookup_map_list {A B} (f : A -> B) (l : list A) i :
  map f l !! i = option_map f (l !! i).
Proof. induction l as [|x l IH] in i |- *; destruct i; cbn; auto. Qed.

Lemma peerStep_call_fresh st i :
  calls st !! i = Some CIdle -> globalPeer st = None ->
  peerStep st (PCall i) =
  mkPeers None (peersCreated st) (peersOpen st) (S (fetchCount st))
    (<[i := CFetching]> (calls st)).
Proof. intros Hi Hg. unfold peerStep. rewrite Hi, Hg. reflexivity. Qed.

Lemma peerStep_fetch st i :
  calls st !! i = Some CFetching ->
  peerStep st (PFetchDone i) =
  mkPeers (Some (peersCreated st)) (S (peersCreated st)) (peersOpen st) (fetchCount st)
    (<[i := check_id (Some (peersCreated st)) (peersOpen st)]> (calls st)).
Proof. intros Hi. unfold peerStep. rewrite Hi. reflexivity. Qed.

Lemma peerStep_open st p :
  (p < peersCreated st)%nat -> ~ In p (peersOpen st) ->
  peerStep st (POpen p) =
  mkPeers (globalPeer st) (peersCreated st) (p :: peersOpen st) (fetchCount st)
    (map (fun pc => match pc with
                    | CWaitOpen q => if Nat.eqb q p then CReturned (globalPeer st) else pc
                    | _ => pc
                    end) (calls st)).
Proof.
  intros Hp Hn. unfold peerStep.
  replace ((p <? peersCreated st)%nat && negb (existsb (Nat.eqb p) (peersOpen st)))
    with true; [reflexivity|].
  symmetry. apply andb_true_iff. split; [apply Nat.ltb_lt; exact Hp|].
  destruct (existsb (Nat.eqb p) (peersOpen st)) eqn:E; [|reflexivity].
  apply existsb_exists in E as (q & Hq & Heq). apply Nat.eqb_eq in Heq. subst q.
  contradiction.
Qed.

Lemma check_id_unopened p opened :
  ~ In p opened -> check_id (Some p) opened = CWaitOpen p.
Proof.
  intros Hp. unfold check_id.
  destruct (existsb (Nat.eqb p) opened) eqn:E; [|reflexivity].
  apply existsb_exists in E as (q & Hq & Heq). apply Nat.eqb_eq in Heq. subst q.
  contradiction.
Qed.

(** X11. Two calls that both start before the ICE-server fetch of
    either has answered both see [globalPeer] unset: two fetches are made
    and two peers constructed, [globalPeer] is left on the second and the
    first is no longer referenced. When the first peer opens, the call
    waiting on it returns [globalPeer], the second peer, which has not
    opened yet. *)
Theorem concurrent_calls_create_two_peers :
  forall (st : PeerState) (i j : nat),
    i <> j ->
    calls st !! i = Some CIdle -> calls st !! j = Some CIdle ->
    globalPeer st = None ->
    Forall (fun q => (q < peersCreated st)%nat) (peersOpen st) ->
    let c := peersCreated st in
    let st' := peerRun st [PCall i; PCall j; PFetchDone i; PFetchDone j; POpen c] in
    fetchCount st' = (fetchCount st + 2)%nat /\
    peersCreated st' = (c + 2)%nat /\
    globalPeer st' = Some (S c) /\
    calls st' !! i = Some (CReturned (Some (S c))) /\
    calls st' !! j = Some (CWaitOpen (S c)) /\
    ~ In (S c) (peersOpen st').
Proof.
  intros [g c O f L] i j Hij Hi Hj Hg HO. cbn [calls globalPeer peersCreated peersOpen
    fetchCount] in *. subst g. cbv zeta.
  assert (HnO : forall q, (c <= q)%nat -> ~ In q O).
  { intros q Hq Hin. rewrite List.Forall_forall in HO. specialize (HO q Hin). lia. }
  unfold peerRun. cbn [fold_left].
  rewrite (peerStep_call_fresh (mkPeers None c O f L) i Hi eq_refl). cbn [peersCreated
    peersOpen fetchCount].
  rewrite (peerStep_call_fresh (mkPeers None c O (S f) (<[i:=CFetching]> L)) j);
    [| cbn; rewrite list_lookup_insert_ne by congruence; exact Hj | reflexivity].
  cbn [peersCreated peersOpen fetchCount calls].
  assert (Hli : (i < length L)%nat) by (apply lookup_lt_Some in Hi; exact Hi).
  assert (Hlj : (j < length L)%nat) by (apply lookup_lt_Some in Hj; exact Hj).
  rewrite (peerStep_fetch (mkPeers None c O (S (S f)) (<[j:=CFetching]> (<[i:=CFetching]> L))) i);
    [| cbn; rewrite list_lookup_insert_ne by congruence;
       rewrite list_lookup_insert_eq by exact Hli; reflexivity].
  cbn [peersCreated peersOpen fetchCount calls].
  rewrite check_id_unopened by (apply HnO; lia).
  unfold set_call. cbn [calls].
  rewrite peerStep_fetch;
    [| cbn; rewrite list_lookup_insert_ne by congruence;
       rewrite list_lookup_insert_eq by (rewrite length_insert; exact Hlj); reflexivity].
  cbn [peersCreated peersOpen fetchCount calls].
  rewrite check_id_unopened by (apply HnO; lia).
  unfold peerStep. cbn [globalPeer peersCreated peersOpen fetchCount calls].
  replace ((c <? S (S c))%nat && negb (existsb (Nat.eqb c) O)) with true.
  2: { symmetry. apply andb_true_iff. split; [apply Nat.ltb_lt; lia|].
       destruct (existsb (Nat.eqb c) O) eqn:E; [|reflexivity].
       apply existsb_exists in E as (q & Hq & Heq). apply Nat.eqb_eq in Heq. subst q.
       exfalso. exact (HnO c (le_n c) Hq). }
  cbv beta iota. cbn [globalPeer peersCreated peersOpen fetchCount calls].
  split; [lia|]. split; [lia|]. split; [reflexivity|].
  rewrite !lookup_map_list. split; [|split].
  - unfold set_call. cbn [calls]. rewrite list_lookup_insert_ne by congruence.
    rewrite list_lookup_insert_eq by (rewrite !length_insert; exact Hli).
    cbn [option_map]. rewrite Nat.eqb_refl. reflexivity.
  - unfold set_call. cbn [calls].
    rewrite list_lookup_insert_eq by (rewrite !length_insert; exact Hlj).
    cbn [option_map]. replace (Nat.eqb (S c) c) with false by (symmetry; apply Nat.eqb_neq; lia).
    reflexivity.
  - intros [H|H]; [lia|]. exact (HnO (S c) ltac:(lia) H).
Qed.

Lemma concurrent_calls_create_two_peers_witness :
  let st' := peerRun (mkPeers None 0 [] 0 [CIdle; CIdle])
               [PCall 0; PCall 1; PFetchDone 0; PFetchDone 1; POpen 0] in
  fetchCount st' = 2%nat /\ calls st' !! 0%nat = Some (CReturned (Some 1%nat)) /\
  ~ In 1%nat (peersOpen st').
Proof.
  destruct (concurrent_calls_create_two_peers (mkPeers None 0 [] 0 [CIdle; CIdle]) 0 1)
    as (H1 & _ & _ & H2 & _ & H3); [lia | reflexivity | reflexivity | reflexivity
    | constructor |].
  split; [exact H1|]. split; [exact H2 | exact H3].
Defined.

(** X12. Calls that do not overlap share one peer: once a call has
    fetched the ICE servers, constructed the peer and seen it open, a
    later call makes no fetch, constructs nothing and returns that same
    peer at once. *)
Theorem sequential_calls_share_peer :
  forall (st : PeerState) (i j : nat),
    i <> j ->
    calls st !! i = Some CIdle -> calls st !! j = Some CIdle ->
    globalPeer st = None ->
    Forall (fun q => (q < peersCreated st)%nat) (peersOpen st) ->
    let c := peersCreated st in
    let st' := peerRun st [PCall i; PFetchDone i; POpen c; PCall j] in
    fetchCount st' = S (fetchCount st) /\
    peersCreated st' = S c /\
    globalPeer st' = Some c /\
    calls st' !! i = Some (CReturned (Some c)) /\
    calls st' !! j = Some (CReturned (Some c)).
Proof.
  intros [g c O f L] i j Hij Hi Hj Hg HO. cbn [calls globalPeer peersCreated peersOpen
    fetchCount] in *. subst g. cbv zeta.
  assert (HnO : forall q, (c <= q)%nat -> ~ In q O).
  { intros q Hq Hin. rewrite List.Forall_forall in HO. specialize (HO q Hin). lia. }
  assert (Hli : (i < length L)%nat) by (apply lookup_lt_Some in Hi; exact Hi).
  unfold peerRun. cbn [fold_left].
  rewrite (peerStep_call_fresh (mkPeers None c O f L) i Hi eq_refl).
  cbn [peersCreated peersOpen fetchCount].
  rewrite peerStep_fetch;
    [| cbn; rewrite list_lookup_insert_eq by exact Hli; reflexivity].
  cbn [peersCreated peersOpen fetchCount calls].
  rewrite check_id_unopened by (apply HnO; lia).
  unfold set_call. cbn [calls].
  rewrite peerStep_open by (cbn; first [lia | apply HnO; lia]).
  cbn [globalPeer peersCreated peersOpen fetchCount calls].
  unfold peerStep. cbn [globalPeer peersCreated peersOpen fetchCount calls].
  rewrite lookup_map_list, !list_lookup_insert_ne by congruence. rewrite Hj.
  cbn [option_map]. unfold check_id, set_call. cbn [existsb calls].
  rewrite Nat.eqb_refl. cbn [orb].
  split; [reflexivity|]. split; [reflexivity|]. split; [reflexivity|]. split.
  - rewrite list_lookup_insert_ne by congruence. rewrite lookup_map_list.
    rewrite list_lookup_insert_eq by (rewrite !length_insert; exact Hli).
    cbn [option_map]. rewrite Nat.eqb_refl. reflexivity.
  - rewrite list_lookup_insert_eq; [reflexivity|].
    rewrite length_map, !length_insert. apply lookup_lt_Some in Hj. exact Hj.
Qed.

Lemma sequential_calls_share_peer_witness :
  let st' := peerRun (mkPeers None 0 [] 0 [CIdle; CIdle])
               [PCall 0; PFetchDone 0; POpen 0; PCall 1] in
  fetchCount st' = 1%nat /\ calls st' !! 1%nat = Some (CReturned (Some 0%nat)).
Proof.
  destruct (sequential_calls_share_peer (mkPeers None 0 [] 0 [CIdle; CIdle]) 0 1)
    as (H1 & _ & _ & _ & H2); [lia | reflexivity | reflexivity | reflexivity
    | constructor |].
  split; [exact H1 | exact H2].
Defined.


